(** * EMCDScroll: the infinite-scrolling user feed (UserFeed.tsx)

    A shallow embedding of the [UserFeed] component: its two pieces of
    hook state ([users], [loading]), its two refs ([observer],
    [lastUserElementRef]), the asynchronous loader [fetchUsers], the
    intersection callback [handleObserver], the two effects and the
    render function.

    The asynchronous function is embedded as a tree of the effects it
    performs, with the continuation after each [await] kept as a Rocq
    function; the browser (network, JSON parsing, intersection
    notifications) is the environment and supplies the events. *)

From stdpp Require Import base list strings pretty.
From Stdlib Require Import Lia.

(** ** Data model *)

(** [type User] of the source, with the nested objects flattened. *)
Record User := mkUser {
  login_uuid : string;
  picture_large : string;
  name_first : string;
  name_last : string;
  email : string
}.

(** What [fetch] resolves to. The loader never inspects it: it only
    hands it to [response.json()]. *)
Record Response := mkResponse {
  resp_status : nat;
  resp_body : string
}.

(** What [response.json()] resolves to, at the type the source casts it
    to ([data.results as User[]]). *)
Record Data := mkData {
  results : list User
}.

(** The reasons a promise of the browser rejects with. *)
Inductive Error :=
| TypeError (msg : string)
| SyntaxError (msg : string).

(** How an awaited promise settles. *)
Inductive Settled (A : Type) :=
| Resolved (a : A)
| RejectedWith (e : Error).
Arguments Resolved {A} a.
Arguments RejectedWith {A} e.

(** ** Asynchronous programs

    The body of an [async] function, as the sequence of things it does:
    calls of the two state setters, and the two awaits. *)
Inductive Prog :=
| Ret
| SetLoading (b : bool) (k : Prog)
| SetUsers (f : list User -> list User) (k : Prog)
| AwaitFetch (url : string) (k : Response -> Prog)
| AwaitJson (r : Response) (k : Data -> Prog).

(** The fixed third-party endpoint and the hardcoded batch size. *)
Definition api_endpoint : string := "https://randomuser.me/api/".
Definition batch_size : nat := 10.

(** The literal of the source. *)
Definition fetch_url : string := "https://randomuser.me/api/?results=10".

(** [fetchUsers] (source lines 64-71). *)
Definition fetchUsers : Prog :=
  SetLoading true $
  AwaitFetch fetch_url $ fun response =>
  AwaitJson response $ fun data =>
  SetUsers (fun prevUsers => prevUsers ++ results data) $
  SetLoading false $
  Ret.

(** The rest of [fetchUsers] after each of its awaits. *)
Definition after_json (data : Data) : Prog :=
  SetUsers (fun prevUsers => prevUsers ++ results data) $
  SetLoading false $
  Ret.

Definition after_fetch (response : Response) : Prog :=
  AwaitJson response after_json.

(** ** One invocation on its own

    An invocation run to its end against a browser that answers each
    await at once. *)
Record Env := mkEnv {
  net : string -> Settled Response;
  parse : Response -> Settled Data
}.

(** What an invocation is seen to do, in order. *)
Inductive Effect :=
| ESetLoading (b : bool)
| ERequest (url : string)
| EParse (r : Response)
| ESetUsers (f : list User -> list User).

(** The component's hook state. *)
Record Hooks := mkHooks {
  h_users : list User;
  h_loading : bool
}.

Record Run := mkRun {
  effects : list Effect;
  final : Hooks;
  outcome : Settled unit
}.

Definition log (e : Effect) (r : Run) : Run :=
  mkRun (e :: effects r) (final r) (outcome r).

Fixpoint exec (env : Env) (p : Prog) (h : Hooks) : Run :=
  match p with
  | Ret => mkRun [] h (Resolved tt)
  | SetLoading b k =>
      log (ESetLoading b) (exec env k (mkHooks (h_users h) b))
  | SetUsers f k =>
      log (ESetUsers f) (exec env k (mkHooks (f (h_users h)) (h_loading h)))
  | AwaitFetch url k =>
      log (ERequest url)
        match net env url with
        | Resolved r => exec env (k r) h
        | RejectedWith e => mkRun [] h (RejectedWith e)
        end
  | AwaitJson r k =>
      log (EParse r)
        match parse env r with
        | Resolved d => exec env (k d) h
        | RejectedWith e => mkRun [] h (RejectedWith e)
        end
  end.

(** ** The view (source lines 38-44 and 105-116) *)

(** The <div> of the card at a position among the feed's children. The
    sequence only grows at its end and the cards are keyed, so a position
    names the same element in every render. *)
Definition Node := nat.

(** A rendered [UserCard]: the <img>, the <h3>, the <p>, and whether the
    parent passed [lastUserElementRef] as its [ref]. *)
Record Card := mkCard {
  key : string;
  img_src : string;
  img_alt : string;
  heading : string;
  email_line : string;
  has_ref : bool
}.

Record View := mkView {
  cards : list Card;
  indicator : option string
}.

Definition full_name (user : User) : string :=
  (name_first user +:+ " " +:+ name_last user)%string.

Definition UserCard (user : User) (ref : bool) : Card :=
  {| key := login_uuid user;
     img_src := picture_large user;
     img_alt := full_name user;
     heading := full_name user;
     email_line := ("Email: " +:+ email user)%string;
     has_ref := ref |}.

Definition render (h : Hooks) : View :=
  {| cards :=
       imap (fun index user =>
               if decide (index = length (h_users h) - 1)
               then UserCard user true
               else UserCard user false)
            (h_users h);
     indicator := if h_loading h then Some "Loading..."%string else None |}.

(** After a render React stores in [lastUserElementRef.current] the
    element that was given the ref; with no such element the ref keeps
    what it held. *)
Definition commit_ref (v : View) (current : option Node) : option Node :=
  match list_find (fun c => has_ref c = true) (cards v) with
  | Some (index, _) => Some index
  | None => current
  end.

(** ** The component instance *)

(** An invocation suspended at one of its awaits. *)
Inductive Susp :=
| AtFetch (url : string) (k : Response -> Prog)
| AtJson (r : Response) (k : Data -> Prog).

(** The promise a call of [fetchUsers] returns. *)
Inductive Promise :=
| Pending (at_await : Susp)
| Fulfilled
| Rejected (e : Error).

(** A queued state update. *)
Inductive Update :=
| ULoading (b : bool)
| UUsers (f : list User -> list User).

Record State := mkState {
  users : list User;
  loading : bool;
  (** [observer.current]: which instance, if any *)
  observer : option nat;
  (** [lastUserElementRef.current] *)
  lastUserElementRef : option Node;
  (** every [IntersectionObserver] constructed so far, with its targets *)
  observers : list (list Node);
  (** the promise of every call of [fetchUsers] so far *)
  promises : list Promise;
  (** the URLs requested so far *)
  requests : list string
}.

Definition hooks (s : State) : Hooks := mkHooks (users s) (loading s).

Definition set_hooks (h : Hooks) (s : State) : State :=
  mkState (h_users h) (h_loading h) (observer s) (lastUserElementRef s)
          (observers s) (promises s) (requests s).

Definition set_ref (r : option Node) (s : State) : State :=
  mkState (users s) (loading s) (observer s) r
          (observers s) (promises s) (requests s).

Definition set_observer (o : option nat) (s : State) : State :=
  mkState (users s) (loading s) o (lastUserElementRef s)
          (observers s) (promises s) (requests s).

Definition set_observers (obs : list (list Node)) (s : State) : State :=
  mkState (users s) (loading s) (observer s) (lastUserElementRef s)
          obs (promises s) (requests s).

Definition set_promises (ps : list Promise) (s : State) : State :=
  mkState (users s) (loading s) (observer s) (lastUserElementRef s)
          (observers s) ps (requests s).

Definition set_requests (rs : list string) (s : State) : State :=
  mkState (users s) (loading s) (observer s) (lastUserElementRef s)
          (observers s) (promises s) rs.

(** *** Running an invocation up to its next await *)

Record Sync := mkSync {
  queued : list Update;
  sent : list string;
  after : Promise
}.

Fixpoint run_sync (p : Prog) : Sync :=
  match p with
  | Ret => mkSync [] [] Fulfilled
  | SetLoading b k =>
      let r := run_sync k in mkSync (ULoading b :: queued r) (sent r) (after r)
  | SetUsers f k =>
      let r := run_sync k in mkSync (UUsers f :: queued r) (sent r) (after r)
  | AwaitFetch url k => mkSync [] [url] (Pending (AtFetch url k))
  | AwaitJson r k => mkSync [] [] (Pending (AtJson r k))
  end.

(** A fresh call: its promise is new. *)
Definition call (p : Prog) (sq : State * list Update) : State * list Update :=
  let r := run_sync p in
  (set_requests (requests sq.1 ++ sent r)
     (set_promises (promises sq.1 ++ [after r]) sq.1),
   sq.2 ++ queued r).

(** The continuation of invocation [t] runs. *)
Definition resume (t : nat) (p : Prog) (s : State) : State * list Update :=
  let r := run_sync p in
  (set_requests (requests s ++ sent r)
     (set_promises (<[t := after r]> (promises s)) s),
   queued r).

(** *** State updates and re-rendering *)

Definition apply_update (h : Hooks) (u : Update) : Hooks :=
  match u with
  | ULoading b => mkHooks (h_users h) b
  | UUsers f => mkHooks (f (h_users h)) (h_loading h)
  end.

Definition flush (q : list Update) (h : Hooks) : Hooks :=
  foldl apply_update h q.

(** Every [setUsers] of the source stores a new array, so the effect
    that depends on [users] runs again exactly when one was queued. *)
Definition is_UUsers (u : Update) : bool :=
  match u with UUsers _ => true | ULoading _ => false end.

Definition users_changed (q : list Update) : bool := existsb is_UUsers q.

(** *** The observer effect (source lines 89-96) *)

Definition disconnect (o : nat) (obs : list (list Node)) : list (list Node) :=
  <[o := []]> obs.

Definition observe (o : nat) (n : Node) (obs : list (list Node)) : list (list Node) :=
  alter (fun targets => targets ++ [n]) o obs.

(** [return () => observer.current?.disconnect()] *)
Definition observer_cleanup (s : State) : State :=
  match observer s with
  | Some o => set_observers (disconnect o (observers s)) s
  | None => s
  end.

Definition observer_effect (s : State) : State :=
  (* if (observer.current) observer.current.disconnect(); *)
  let s1 := match observer s with
            | Some o => set_observers (disconnect o (observers s)) s
            | None => s
            end in
  (* observer.current = new IntersectionObserver(handleObserver); *)
  let o := length (observers s1) in
  let s2 := set_observer (Some o) (set_observers (observers s1 ++ [[]]) s1) in
  (* if (lastUserElementRef.current) observer.current.observe(...); *)
  match lastUserElementRef s2 with
  | Some n => set_observers (observe o n (observers s2)) s2
  | None => s2
  end.

(** Processing the queue: new state, render, commit of the ref, then the
    effects whose dependencies changed. An empty queue renders nothing. *)
Definition rerender (sq : State * list Update) : State :=
  match sq.2 with
  | [] => sq.1
  | _ =>
      let s1 := set_hooks (flush sq.2 (hooks sq.1)) sq.1 in
      let s2 := set_ref (commit_ref (render (hooks s1)) (lastUserElementRef s1)) s1 in
      if users_changed sq.2 then observer_effect (observer_cleanup s2) else s2
  end.

(** *** The intersection callback (source lines 78-84) *)

Record Entry := mkEntry {
  target : Node;
  isIntersecting : bool
}.

Inductive Handled :=
| Threw (e : Error)
| Called (calls : list Prog).

Definition handleObserver (entries : list Entry) : Handled :=
  match entries with
  | [] => Threw (TypeError "entry is undefined")
  | entry :: _ =>
      if isIntersecting entry then Called [fetchUsers] else Called []
  end.

(** A call of [fetchUsers] from an event handler or an effect, and the
    render its queued updates cause. *)
Definition invoke (s : State) : State := rerender (call fetchUsers (s, [])).

(** *** Mounting (the first render and both effects) *)

Definition unmounted : State := mkState [] false None None [] [] [].

Definition mount : State :=
  let s1 := set_ref (commit_ref (render (hooks unmounted))
                                (lastUserElementRef unmounted)) unmounted in
  (* first effect: the observer *)
  let s2 := observer_effect s1 in
  (* second effect: useEffect(() => { fetchUsers(); }, []) *)
  invoke s2.

(** *** Events of the browser *)

Inductive Event :=
| Intersect (o : nat) (entries : list Entry)
| FetchSettles (t : nat) (x : Settled Response)
| JsonSettles (t : nat) (x : Settled Data).

(** An observer only reports on targets it observes. *)
Definition delivers (s : State) (o : nat) (entries : list Entry) : bool :=
  match observers s !! o with
  | Some targets => forallb (fun e => bool_decide (target e ∈ targets)) entries
  | None => false
  end.

Definition reject (t : nat) (e : Error) (s : State) : State :=
  set_promises (<[t := Rejected e]> (promises s)) s.

Definition step (s : State) (ev : Event) : option State :=
  match ev with
  | Intersect o entries =>
      if delivers s o entries then
        match handleObserver entries with
        | Threw _ => Some s
        | Called calls => Some (rerender (foldl (fun sq p => call p sq) (s, []) calls))
        end
      else None
  | FetchSettles t x =>
      match promises s !! t with
      | Some (Pending (AtFetch _ k)) =>
          match x with
          | Resolved r => Some (rerender (resume t (k r) s))
          | RejectedWith e => Some (reject t e s)
          end
      | _ => None
      end
  | JsonSettles t x =>
      match promises s !! t with
      | Some (Pending (AtJson _ k)) =>
          match x with
          | Resolved d => Some (rerender (resume t (k d) s))
          | RejectedWith e => Some (reject t e s)
          end
      | _ => None
      end
  end.

Fixpoint run (s : State) (evs : list Event) : option State :=
  match evs with
  | [] => Some s
  | ev :: evs' =>
      match step s ev with
      | Some s' => run s' evs'
      | None => None
      end
  end.

Definition reachable (s : State) : Prop := exists evs, run mount evs = Some s.

(** *** Observations on a state *)

Definition is_pending (p : Promise) : bool :=
  match p with Pending _ => true | _ => false end.
Definition is_fulfilled (p : Promise) : bool :=
  match p with Fulfilled => true | _ => false end.
Definition is_rejected (p : Promise) : bool :=
  match p with Rejected _ => true | _ => false end.

Definition count {A} (f : A -> bool) (l : list A) : nat :=
  length (List.filter f l).
Arguments count : simpl never.

(** Calls of [fetchUsers] made, still awaiting, completed, failed. *)
Definition invocations (s : State) : nat := length (promises s).
Definition in_flight (s : State) : nat := count is_pending (promises s).
Definition fulfilled (s : State) : nat := count is_fulfilled (promises s).
Definition failed (s : State) : nat := count is_rejected (promises s).

(** The element of the last card, if there is a card. *)
Definition last_node (us : list User) : option Node :=
  match us with
  | [] => None
  | _ => Some (length us - 1)
  end.

(** What an observer attached to the last card observes. *)
Definition last_card (us : list User) : list Node :=
  match last_node us with
  | Some n => [n]
  | None => []
  end.

(** The targets of [observer.current]. *)
Definition watched (s : State) : option (list Node) :=
  match observer s with
  | Some o => observers s !! o
  | None => None
  end.

(** Every response parsed in a run carried a full batch. *)
Definition full_batches (evs : list Event) : Prop :=
  forall t d, JsonSettles t (Resolved d) ∈ evs -> length (results d) = batch_size.

(** A loading flag that is set means a call is outstanding. *)
Definition loading_means_in_flight (s : State) : Prop :=
  loading s = true -> 0 < in_flight s.

(** *** Well-formed states

    What holds of every state the mounted component can be in: each
    pending promise is an invocation of [fetchUsers] at one of its two
    awaits, the ref holds the last card, and the newest observer is the
    current one, the only one with a target. *)
Definition wf_promise (p : Promise) : Prop :=
  match p with
  | Pending (AtFetch url k) => url = fetch_url /\ k = after_fetch
  | Pending (AtJson _ k) => k = after_json
  | Fulfilled | Rejected _ => True
  end.

Definition Inv (s : State) : Prop :=
  Forall wf_promise (promises s)
  /\ lastUserElementRef s = last_node (users s)
  /\ exists n, observer s = Some n
              /\ observers s = replicate n [] ++ [last_card (users s)].

(** *** The transitions of a well-formed state

    What [step] does, case by case, once every pending promise is known
    to be an invocation of [fetchUsers]. *)
Inductive Transition (s : State) : Event -> State -> Prop :=
| T_no_entry o :
    Transition s (Intersect o []) s
| T_away o entry entries :
    isIntersecting entry = false ->
    Transition s (Intersect o (entry :: entries)) s
| T_enter o entry entries :
    isIntersecting entry = true ->
    Transition s (Intersect o (entry :: entries)) (invoke s)
| T_response t r :
    promises s !! t = Some (Pending (AtFetch fetch_url after_fetch)) ->
    Transition s (FetchSettles t (Resolved r))
      (set_promises (<[t := Pending (AtJson r after_json)]> (promises s)) s)
| T_fetch_fails t e :
    promises s !! t = Some (Pending (AtFetch fetch_url after_fetch)) ->
    Transition s (FetchSettles t (RejectedWith e)) (reject t e s)
| T_data t r d :
    promises s !! t = Some (Pending (AtJson r after_json)) ->
    Transition s (JsonSettles t (Resolved d))
      (rerender (resume t (after_json d) s))
| T_json_fails t r e :
    promises s !! t = Some (Pending (AtJson r after_json)) ->
    Transition s (JsonSettles t (RejectedWith e)) (reject t e s).

(** What a callback result amounts to in calls of the loader. *)
Definition calls_made (h : Handled) : list Prog :=
  match h with
  | Called calls => calls
  | Threw _ => []
  end.

(** [const [entry] = entries; entry.isIntersecting], where there is one. *)
Definition first_intersecting (entries : list Entry) : bool :=
  match entries with
  | entry :: _ => isIntersecting entry
  | [] => false
  end.

(** *** Sample data *)

Definition sample_user (n : nat) : User :=
  {| login_uuid := pretty n;
     picture_large := "https://randomuser.me/api/portraits/1.jpg";
     name_first := "Ada";
     name_last := "Lovelace";
     email := "ada@example.com" |}.

Definition sample_batch : list User := sample_user <$> seq 0 10.

Definition sample_response : Response := mkResponse 200 "{}".

(** The first batch arrives. *)
Definition sample_run : list Event :=
  [ FetchSettles 0 (Resolved sample_response);
    JsonSettles 0 (Resolved (mkData sample_batch)) ].

(** The network is down. *)
Definition offline : Env :=
  {| net := fun _ => RejectedWith (TypeError "Failed to fetch");
     parse := fun _ => RejectedWith (SyntaxError "Unexpected end of JSON input") |}.

(** *** Further observations *)

(** The batches parsed along a run, in the order their parses settled. *)
Fixpoint batches (evs : list Event) : list User :=
  match evs with
  | [] => []
  | JsonSettles _ (Resolved d) :: evs' => results d ++ batches evs'
  | _ :: evs' => batches evs'
  end.

(** Invocation [t] has its response and awaits the parse of it. *)
Definition parsing (s : State) (t : nat) : bool :=
  match promises s !! t with
  | Some (Pending (AtJson _ _)) => true
  | _ => false
  end.

(** The only writes of the loading flag: [setLoading(true)] when the
    loader is called, [setLoading(false)] after its [setUsers]. *)
Definition flag_after (ev : Event) (before : bool) : bool :=
  match ev with
  | Intersect _ entries => first_intersecting entries || before
  | JsonSettles _ (Resolved _) => false
  | _ => before
  end.

(** The settlements an environment gives invocation [t], in order. *)
Definition settlements (env : Env) (t : nat) : list Event :=
  FetchSettles t (net env fetch_url) ::
  match net env fetch_url with
  | Resolved r => [JsonSettles t (parse env r)]
  | RejectedWith _ => []
  end.

(** The promise of an [async] call that ended with this outcome. *)
Definition settled_as (o : Settled unit) : Promise :=
  match o with
  | Resolved _ => Fulfilled
  | RejectedWith e => Rejected e
  end.

(** *** The entry point (main.tsx)

    [createRoot(...).render(<StrictMode><UserFeed /></StrictMode>)].
    In a development build [StrictMode] runs, right after the effects of
    the mount, every effect's cleanup and then every effect once more;
    the hook state and the refs are kept. A production build mounts
    once. The container is asserted to exist ([getElementById('root')!]). *)
Definition strict_mount : State :=
  let s1 := set_ref (commit_ref (render (hooks unmounted))
                                (lastUserElementRef unmounted)) unmounted in
  (* the effects of the mount *)
  let s2 := observer_effect s1 in
  let sq3 := call fetchUsers (s2, []) in
  (* the cleanups: only the observer effect returns one *)
  let s4 := observer_cleanup sq3.1 in
  (* the effects once more *)
  let s5 := observer_effect s4 in
  rerender (call fetchUsers (s5, sq3.2)).

Definition main (development : bool) : State :=
  if development then strict_mount else mount.

(** *** More sample data *)

Definition visible_last : Event := Intersect 1 [mkEntry 9 true].

(** The first batch arrives, the last card is reported visible twice,
    and both new requests are answered: two invocations await their
    parse. *)
Definition overlap_run : list Event :=
  sample_run ++
  [ visible_last; visible_last;
    FetchSettles 1 (Resolved sample_response);
    FetchSettles 2 (Resolved sample_response) ].

Definition other_batch : list User := sample_user <$> seq 10 10.

Definition overlap_state : State :=
  Eval vm_compute in default mount (run mount overlap_run).

(** The promise of the most recent call of the loader. *)
Definition newest (s : State) : option Promise := last (promises s).

(** The first batch arrives; the next request fails; a third invocation
    stores a second batch; the new last card comes into view. *)
Definition recovered_run : list Event :=
  sample_run ++
  [ visible_last;
    FetchSettles 1 (RejectedWith (TypeError "Failed to fetch"));
    visible_last;
    FetchSettles 2 (Resolved sample_response);
    JsonSettles 2 (Resolved (mkData other_batch));
    Intersect 2 [mkEntry 19 true] ].

Definition recovered_state : State :=
  Eval vm_compute in default mount (run mount recovered_run).

(** * Properties *)

(** ** The loader on its own *)

Lemma fetch_url_batch :
  fetch_url = (api_endpoint +:+ "?results=" +:+ pretty batch_size)%string.
Proof. reflexivity. Qed.

Lemma fetchUsers_unfold :
  fetchUsers = SetLoading true (AwaitFetch fetch_url after_fetch).
Proof. reflexivity. Qed.

(** The three synchronous stretches of an invocation: up to the request,
    from the response to the parse, and from the parsed data to the end. *)
Lemma run_sync_fetchUsers :
  run_sync fetchUsers =
  mkSync [ULoading true] [fetch_url] (Pending (AtFetch fetch_url after_fetch)).
Proof. reflexivity. Qed.

Lemma run_sync_after_fetch r :
  run_sync (after_fetch r) = mkSync [] [] (Pending (AtJson r after_json)).
Proof. reflexivity. Qed.

Lemma run_sync_after_json d :
  run_sync (after_json d) =
  mkSync [UUsers (fun prevUsers => prevUsers ++ results d); ULoading false] [] Fulfilled.
Proof. reflexivity. Qed.

(** C1. Every invocation of [fetchUsers] does, in this order: set the
    loading flag, request the fixed URL (the endpoint with a batch of
    ten), parse the response, append the parsed records to the
    accumulated sequence, clear the loading flag. An invocation whose
    request or parse fails stops there, having done the steps before it
    in that same order. In the mounted component the same steps come in
    three stretches, one up to each await and one to the end. *)
Theorem fetchUsers_order (env : Env) (h : Hooks) :
  effects (exec env fetchUsers h) =
    match net env fetch_url with
    | RejectedWith _ => [ESetLoading true; ERequest fetch_url]
    | Resolved r =>
        match parse env r with
        | RejectedWith _ => [ESetLoading true; ERequest fetch_url; EParse r]
        | Resolved d =>
            [ESetLoading true; ERequest fetch_url; EParse r;
             ESetUsers (fun prevUsers => prevUsers ++ results d);
             ESetLoading false]
        end
    end
  /\ run_sync fetchUsers =
       mkSync [ULoading true] [fetch_url] (Pending (AtFetch fetch_url after_fetch))
  /\ (forall r, run_sync (after_fetch r) =
                 mkSync [] [] (Pending (AtJson r after_json)))
  /\ (forall d, run_sync (after_json d) =
                 mkSync [UUsers (fun prevUsers => prevUsers ++ results d);
                         ULoading false] [] Fulfilled)
  /\ fetch_url = (api_endpoint +:+ "?results=" +:+ pretty batch_size)%string
  /\ batch_size = 10.
Proof.
  split; [| repeat split; reflexivity].
  rewrite fetchUsers_unfold. cbn [exec log effects].
  destruct (net env fetch_url) as [r | e]; cbn; [| reflexivity].
  destruct (parse env r) as [d | e]; reflexivity.
Qed.

(** The state a complete invocation ends in. *)
Lemma fetchUsers_completes (env : Env) (h : Hooks) r d :
  net env fetch_url = Resolved r ->
  parse env r = Resolved d ->
  outcome (exec env fetchUsers h) = Resolved tt
  /\ final (exec env fetchUsers h) = mkHooks (h_users h ++ results d) false.
Proof.
  intros Hn Hp. rewrite fetchUsers_unfold. cbn. rewrite Hn. cbn. rewrite Hp.
  split; reflexivity.
Qed.

(** ** The view *)

Lemma render_cards_lookup (h : Hooks) (i : nat) :
  cards (render h) !! i =
  (fun user => UserCard user (bool_decide (i = length (h_users h) - 1)))
    <$> h_users h !! i.
Proof.
  unfold render; cbn [cards]. rewrite list_lookup_imap.
  destruct (h_users h !! i) as [u |]; cbn; [| reflexivity].
  rewrite bool_decide_decide. destruct (decide _); reflexivity.
Qed.

Lemma render_cards_length (h : Hooks) :
  length (cards (render h)) = length (h_users h).
Proof. unfold render; cbn [cards]. apply length_imap. Qed.

(** C7. The render has one card per record of the accumulated sequence,
    the card at each position showing the record at that position, and
    the loading indicator is there exactly when the flag is set. *)
Theorem render_cards_and_indicator (s : State) :
  length (cards (render (hooks s))) = length (users s)
  /\ (forall i,
        cards (render (hooks s)) !! i =
        (fun user => UserCard user (bool_decide (i = length (users s) - 1)))
          <$> users s !! i)
  /\ indicator (render (hooks s)) =
       (if loading s then Some "Loading..."%string else None)
  /\ (is_Some (indicator (render (hooks s))) <-> loading s = true).
Proof.
  split; [apply render_cards_length |].
  split; [intros i; apply (render_cards_lookup (hooks s)) |].
  split; [reflexivity |].
  cbn. destruct (loading s); split; intros H; try done.
Qed.

(** ** The ref and the observer *)

Lemma last_node_app_nonempty (us vs : list User) :
  last_node (us ++ vs) = None <-> us = [] /\ vs = [].
Proof.
  unfold last_node. destruct us, vs; cbn; split; intros H; try done;
    by destruct H.
Qed.

Lemma commit_ref_render (h : Hooks) (current : option Node) :
  commit_ref (render h) current =
  match last_node (h_users h) with
  | Some n => Some n
  | None => current
  end.
Proof.
  unfold commit_ref.
  destruct (h_users h) as [| u us] eqn:Hus.
  - unfold render. rewrite Hus. reflexivity.
  - assert (Hlen : length (h_users h) = S (length us)) by (by rewrite Hus).
    destruct (lookup_lt_is_Some_2 (h_users h) (length us)) as [x Hx]; [lia |].
    assert (Hfind : list_find (fun c => has_ref c = true) (cards (render h))
                    = Some (length us, UserCard x true)).
    { apply list_find_Some. split; [| split].
      - rewrite render_cards_lookup, Hx. cbn.
        rewrite bool_decide_eq_true_2; [done | lia].
      - reflexivity.
      - intros j c Hj Hlt. rewrite render_cards_lookup in Hj.
        destruct (h_users h !! j) as [y |]; [| done].
        cbn in Hj. rewrite bool_decide_eq_false_2 in Hj by lia.
        injection Hj as <-. cbn. done. }
    rewrite Hfind. cbn. f_equal. lia.
Qed.

Lemma disconnect_newest (n : nat) (targets : list Node) :
  disconnect n (replicate n [] ++ [targets]) = replicate (S n) [].
Proof.
  unfold disconnect.
  rewrite insert_app_r_alt by (rewrite length_replicate; lia).
  rewrite length_replicate, Nat.sub_diag. cbn.
  by rewrite replicate_cons_app.
Qed.

Lemma disconnect_empty (n : nat) :
  disconnect n (replicate (S n) []) = replicate (S n) [].
Proof.
  unfold disconnect. apply list_insert_id, lookup_replicate_2. lia.
Qed.

Lemma observe_newest (n : nat) (m : Node) :
  observe n m (replicate n [] ++ [[]]) = replicate n [] ++ [[m]].
Proof.
  unfold observe.
  rewrite alter_app_r_alt by (rewrite length_replicate; lia).
  by rewrite length_replicate, Nat.sub_diag.
Qed.

(** The effect run again after its cleanup: the old observer loses its
    target, and a new one, now current, takes the element in the ref. *)
Lemma observer_effect_rerun (s : State) (n : nat) (targets : list Node) :
  observer s = Some n ->
  observers s = replicate n [] ++ [targets] ->
  observer_effect (observer_cleanup s) =
  set_observer (Some (S n))
    (set_observers
       (replicate (S n) [] ++
        [match lastUserElementRef s with Some m => [m] | None => [] end]) s).
Proof.
  destruct s as [us ld o ref obs ps rs]. cbn. intros -> ->.
  unfold observer_cleanup, observer_effect, set_observers, set_observer.
  cbn [observer observers lastUserElementRef users loading promises requests].
  rewrite disconnect_newest, disconnect_empty, length_replicate.
  destruct ref as [m |]; [| reflexivity].
  cbn [observer observers lastUserElementRef users loading promises requests].
  by rewrite observe_newest.
Qed.

(** ** The shape of each step *)

Lemma invoke_eq (s : State) :
  invoke s =
  mkState (users s) true (observer s)
    (match last_node (users s) with
     | Some n => Some n
     | None => lastUserElementRef s
     end)
    (observers s)
    (promises s ++ [Pending (AtFetch fetch_url after_fetch)])
    (requests s ++ [fetch_url]).
Proof.
  unfold invoke, call. rewrite run_sync_fetchUsers.
  unfold rerender. cbn. by rewrite commit_ref_render.
Qed.

Lemma resume_after_fetch (t : nat) (r : Response) (s : State) :
  rerender (resume t (after_fetch r) s) =
  set_promises (<[t := Pending (AtJson r after_json)]> (promises s)) s.
Proof.
  unfold resume. rewrite run_sync_after_fetch. unfold rerender. cbn.
  unfold set_requests, set_promises. cbn. by rewrite app_nil_r.
Qed.

Lemma resume_after_json (t : nat) (d : Data) (s : State) (n : nat) targets :
  observer s = Some n ->
  observers s = replicate n [] ++ [targets] ->
  rerender (resume t (after_json d) s) =
  let ref := match last_node (users s ++ results d) with
             | Some m => Some m
             | None => lastUserElementRef s
             end in
  mkState (users s ++ results d) false (Some (S n)) ref
    (replicate (S n) [] ++ [match ref with Some m => [m] | None => [] end])
    (<[t := Fulfilled]> (promises s))
    (requests s).
Proof.
  intros Ho Hobs. unfold resume. rewrite run_sync_after_json.
  unfold rerender. cbn [fst snd users_changed existsb is_UUsers orb].
  rewrite (observer_effect_rerun _ n targets) by done.
  cbn. rewrite commit_ref_render. cbn. by rewrite app_nil_r.
Qed.

Lemma step_Transition (s : State) (ev : Event) (s' : State) :
  Forall wf_promise (promises s) ->
  step s ev = Some s' ->
  Transition s ev s'.
Proof.
  intros Hwf Hstep. destruct ev as [o entries | t x | t x]; cbn in Hstep.
  - destruct (delivers s o entries); [| done].
    destruct entries as [| entry entries]; cbn in Hstep.
    + injection Hstep as <-. constructor.
    + destruct (isIntersecting entry) eqn:Hi; cbn in Hstep;
        injection Hstep as <-.
      * by apply T_enter.
      * by apply T_away.
  - destruct (promises s !! t) as [[[url k | r0 k] | | e0] |] eqn:Ht; try done.
    pose proof (Forall_lookup_1 _ _ _ _ Hwf Ht) as [-> ->].
    destruct x as [r | e]; injection Hstep as <-.
    + rewrite resume_after_fetch. by constructor.
    + by constructor.
  - destruct (promises s !! t) as [[[url k | r0 k] | | e0] |] eqn:Ht; try done.
    pose proof (Forall_lookup_1 _ _ _ _ Hwf Ht) as Hk. cbn in Hk. subst k.
    destruct x as [d | e]; injection Hstep as <-.
    + by apply (T_data s t r0).
    + by apply (T_json_fails s t r0).
Qed.

(** ** Well-formedness of every reachable state *)

Lemma Inv_mount : Inv mount.
Proof.
  unfold mount. rewrite invoke_eq. cbn. split; [| split].
  - by repeat constructor.
  - reflexivity.
  - by exists 0.
Qed.

Lemma Transition_Inv (s : State) (ev : Event) (s' : State) :
  Inv s -> Transition s ev s' -> Inv s'.
Proof.
  intros Hinv Htr. pose proof Hinv as (Hwf & Href & n & Ho & Hobs).
  destruct Htr as [o | o entry entries Hi | o entry entries Hi
                  | t r Ht | t e Ht | t r d Ht | t r e Ht]; try done.
  - rewrite invoke_eq. split; [| split]; cbn.
    + apply Forall_app. split; [done |]. by repeat constructor.
    + rewrite Href. by destruct (last_node (users s)).
    + by exists n.
  - split; [| split]; cbn; [| done | by exists n].
    by apply Forall_insert.
  - split; [| split]; cbn; [| done | by exists n].
    by apply Forall_insert.
  - rewrite (resume_after_json t d s n _ Ho Hobs). cbn.
    assert (Hnew : match last_node (users s ++ results d) with
                   | Some m => Some m
                   | None => lastUserElementRef s
                   end = last_node (users s ++ results d)).
    { destruct (last_node (users s ++ results d)) eqn:Hl; [done |].
      apply last_node_app_nonempty in Hl as [Hl _]. by rewrite Href, Hl. }
    rewrite Hnew. split; [| split]; cbn.
    + by apply Forall_insert.
    + reflexivity.
    + by exists (S n).
  - split; [| split]; cbn; [| done | by exists n].
    by apply Forall_insert.
Qed.

Lemma run_snoc (s : State) (evs : list Event) (ev : Event) :
  run s (evs ++ [ev]) =
  match run s evs with
  | Some s1 => step s1 ev
  | None => None
  end.
Proof.
  revert s. induction evs as [| e evs IH]; intros s; cbn.
  - by destruct (step s ev).
  - destruct (step s e); [apply IH | done].
Qed.

Lemma run_Inv (evs : list Event) (s : State) :
  run mount evs = Some s -> Inv s.
Proof.
  revert s. induction evs as [| ev evs IH] using rev_ind; intros s Hrun.
  - injection Hrun as <-. apply Inv_mount.
  - rewrite run_snoc in Hrun. destruct (run mount evs) as [s1 |]; [| done].
    pose proof (IH s1 eq_refl) as Hinv.
    eapply Transition_Inv; [done |].
    apply step_Transition; [apply Hinv | done].
Qed.

Lemma reachable_Inv (s : State) : reachable s -> Inv s.
Proof. intros [evs Hrun]. by apply (run_Inv evs). Qed.

(** Induction over the reachable states, a transition at a time. *)
Lemma reachable_induction (P : State -> Prop) :
  P mount ->
  (forall s ev s', reachable s -> P s -> Transition s ev s' -> P s') ->
  forall s, reachable s -> P s.
Proof.
  intros Hmount Hstep s [evs Hrun]. revert s Hrun.
  induction evs as [| ev evs IH] using rev_ind; intros s Hrun.
  - by injection Hrun as <-.
  - rewrite run_snoc in Hrun. destruct (run mount evs) as [s1 |] eqn:H1; [| done].
    apply (Hstep s1 ev); [by exists evs | by apply IH |].
    apply step_Transition; [| done]. apply (run_Inv evs s1 H1).
Qed.

(** Two sample runs and the states they end in. *)
Lemma overlap_run_state : run mount overlap_run = Some overlap_state.
Proof. vm_compute. reflexivity. Qed.

Lemma recovered_run_state : run mount recovered_run = Some recovered_state.
Proof. vm_compute. reflexivity. Qed.

(** ** Counting promises *)

Lemma count_app {A} (f : A -> bool) (l1 l2 : list A) :
  count f (l1 ++ l2) = count f l1 + count f l2.
Proof. unfold count. by rewrite List.filter_app, length_app. Qed.

Lemma count_insert {A} (f : A -> bool) (l : list A) (t : nat) (x y : A) :
  l !! t = Some x ->
  count f (<[t := y]> l) + Nat.b2n (f x) = count f l + Nat.b2n (f y).
Proof.
  unfold count. revert t. induction l as [| a l IH]; intros t Ht; [done |].
  destruct t as [| t]; cbn in *.
  - injection Ht as ->. destruct (f x), (f y); cbn; lia.
  - specialize (IH t Ht). destruct (f a); cbn; [f_equal |]; exact IH.
Qed.

Lemma count_pos {A} (f : A -> bool) (l : list A) (t : nat) (x : A) :
  l !! t = Some x -> f x = true -> 0 < count f l.
Proof.
  intros Ht Hx. pose proof (count_insert f l t x x Ht) as Hc.
  unfold count in *. revert t Ht Hc.
  induction l as [| a l IH]; intros t Ht Hc; [done |].
  destruct t as [| t]; cbn in *.
  - injection Ht as ->. rewrite Hx. cbn. lia.
  - destruct (f a); cbn; [lia |].
    apply (IH t Ht). by rewrite list_insert_id.
Qed.

(** The state after a parsed batch, field by field. *)
Lemma loaded_fields (s : State) (t : nat) (d : Data) :
  Inv s ->
  let s' := rerender (resume t (after_json d) s) in
  users s' = users s ++ results d
  /\ loading s' = false
  /\ promises s' = <[t := Fulfilled]> (promises s)
  /\ requests s' = requests s
  /\ exists n, observer s = Some n
               /\ observer s' = Some (S n)
               /\ observers s' = replicate (S n) [] ++ [last_card (users s')].
Proof.
  intros (Hwf & Href & n & Ho & Hobs). cbn zeta.
  rewrite (resume_after_json t d s n _ Ho Hobs). cbn.
  repeat split. exists n. repeat split; [done |].
  unfold last_card.
  destruct (last_node (users s ++ results d)) eqn:Hl; [done |].
  apply last_node_app_nonempty in Hl as [Hl _]. by rewrite Href, Hl.
Qed.

(** How a transition moves the accumulated sequence and the count of
    completed invocations. *)
Lemma Transition_progress (s : State) (ev : Event) (s' : State) :
  Inv s -> Transition s ev s' ->
  (users s' = users s /\ fulfilled s' = fulfilled s)
  \/ (exists t d, ev = JsonSettles t (Resolved d)
                  /\ users s' = users s ++ results d
                  /\ fulfilled s' = S (fulfilled s)).
Proof.
  intros Hinv Htr.
  destruct Htr as [o | o entry entries Hi | o entry entries Hi
                  | t r Ht | t e Ht | t r d Ht | t r e Ht].
  - by left.
  - by left.
  - left. rewrite invoke_eq. unfold fulfilled. cbn [users promises].
    rewrite count_app. split; [done |].
    change (count is_fulfilled [Pending (AtFetch fetch_url after_fetch)]) with 0.
    lia.
  - left. split; [done |]. unfold fulfilled. cbn.
    pose proof (count_insert is_fulfilled _ _ _
                  (Pending (AtJson r after_json)) Ht) as Hc.
    cbn in Hc. lia.
  - left. split; [done |]. unfold fulfilled, reject. cbn.
    pose proof (count_insert is_fulfilled _ _ _ (Rejected e) Ht) as Hc.
    cbn in Hc. lia.
  - right. exists t, d. split; [done |].
    destruct (loaded_fields s t d Hinv) as (Hu & _ & Hp & _).
    split; [done |]. unfold fulfilled. rewrite Hp.
    pose proof (count_insert is_fulfilled _ _ _ Fulfilled Ht) as Hc.
    cbn in Hc. lia.
  - left. split; [done |]. unfold fulfilled, reject. cbn.
    pose proof (count_insert is_fulfilled _ _ _ (Rejected e) Ht) as Hc.
    cbn in Hc. lia.
Qed.

(** C2. From the mount, where the accumulated sequence is empty, and
    along any run in which every parsed response carried a full batch,
    the sequence holds ten records for each invocation that has
    completed. *)
Theorem users_length_after_full_batches (evs : list Event) (s : State) :
  run mount evs = Some s ->
  full_batches evs ->
  users mount = []
  /\ length (users s) = fulfilled s * 10.
Proof.
  intros Hrun Hfull. split; [reflexivity |]. revert s Hrun Hfull.
  induction evs as [| ev evs IH] using rev_ind; intros s Hrun Hfull.
  - injection Hrun as <-. reflexivity.
  - rewrite run_snoc in Hrun.
    destruct (run mount evs) as [s1 |] eqn:H1; [| done].
    assert (Hfull1 : full_batches evs).
    { intros t d Hin. apply (Hfull t d), elem_of_app. by left. }
    specialize (IH s1 eq_refl Hfull1).
    pose proof (run_Inv evs s1 H1) as Hinv.
    pose proof (step_Transition _ _ _ (proj1 Hinv) Hrun) as Htr.
    destruct (Transition_progress _ _ _ Hinv Htr)
      as [[Hu Hf] | (t & d & -> & Hu & Hf)].
    + by rewrite Hu, Hf.
    + rewrite Hu, Hf, length_app, IH.
      rewrite (Hfull t d); [unfold batch_size; lia |].
      apply elem_of_app. right. by apply list_elem_of_singleton.
Qed.

Lemma users_length_after_full_batches_witness :
  exists s, run mount sample_run = Some s
            /\ full_batches sample_run
            /\ length (users s) = fulfilled s * 10.
Proof.
  assert (Hfull : full_batches sample_run).
  { intros t d Hin. unfold sample_run in Hin.
    apply elem_of_cons in Hin as [Heq | Hin]; [discriminate |].
    apply list_elem_of_singleton in Hin. injection Hin as -> ->. reflexivity. }
  eexists. split; [reflexivity |]. split; [exact Hfull |].
  exact (proj2 (users_length_after_full_batches sample_run _ eq_refl Hfull)).
Defined.

(** ** The accumulated sequence only grows at its end *)

Lemma run_users_prefix (s : State) (evs : list Event) (s' : State) :
  Inv s -> run s evs = Some s' -> users s `prefix_of` users s'.
Proof.
  revert s. induction evs as [| ev evs IH]; intros s Hinv Hrun; cbn in Hrun.
  - by injection Hrun as <-.
  - destruct (step s ev) as [s1 |] eqn:Hstep; [| done].
    pose proof (step_Transition _ _ _ (proj1 Hinv) Hstep) as Htr.
    pose proof (Transition_Inv _ _ _ Hinv Htr) as Hinv1.
    transitivity (users s1); [| by apply IH].
    destruct (Transition_progress _ _ _ Hinv Htr)
      as [[-> _] | (t & d & _ & -> & _)]; [done |].
    by apply prefix_app_r.
Qed.

(** C3. Along any run from a reachable state the accumulated sequence
    only grows at its end: the records already there keep their
    positions, a parsed batch is appended whole (records it shares with
    the sequence included, nothing is dropped), and the cards are
    rendered in the order of the sequence. *)
Theorem users_append_only (s : State) (evs : list Event) (s' : State) :
  reachable s ->
  run s evs = Some s' ->
  users s `prefix_of` users s'
  /\ (forall i user, users s !! i = Some user -> users s' !! i = Some user)
  /\ (forall t d, evs = [JsonSettles t (Resolved d)] ->
                  users s' = users s ++ results d)
  /\ (forall i user, users s' !! i = Some user ->
        exists ref, cards (render (hooks s')) !! i = Some (UserCard user ref)).
Proof.
  intros Hreach Hrun. pose proof (reachable_Inv s Hreach) as Hinv.
  pose proof (run_users_prefix s evs s' Hinv Hrun) as Hpre.
  split; [done |]. split; [| split].
  - intros i user Hi. destruct Hpre as [added ->].
    by apply lookup_app_l_Some.
  - intros t d ->. cbn [run] in Hrun.
    destruct (step s (JsonSettles t (Resolved d))) as [s1 |] eqn:Hstep; [| done].
    injection Hrun as <-.
    pose proof (step_Transition _ _ _ (proj1 Hinv) Hstep) as Htr.
    inversion Htr; subst.
    by destruct (loaded_fields s t d Hinv) as (Hu & _).
  - intros i user Hi. eexists.
    rewrite (render_cards_lookup (hooks s')). cbn. by rewrite Hi.
Qed.

Lemma users_append_only_witness :
  exists s',
    run overlap_state [JsonSettles 1 (Resolved (mkData sample_batch))] = Some s'
    /\ users overlap_state = sample_batch
    /\ users overlap_state `prefix_of` users s'
    /\ users s' !! 3 = Some (sample_user 3)
    /\ users s' = sample_batch ++ sample_batch
    /\ (exists ref, cards (render (hooks s')) !! 13
                      = Some (UserCard (sample_user 3) ref)).
Proof.
  eexists. split; [reflexivity |]. split; [reflexivity |].
  refine (let H := users_append_only overlap_state
                     [JsonSettles 1 (Resolved (mkData sample_batch))] _
                     (ex_intro _ overlap_run overlap_run_state) eq_refl
          in conj (proj1 H)
               (conj (proj1 (proj2 H) 3 (sample_user 3) eq_refl)
                  (conj (proj1 (proj2 (proj2 H)) 1 (mkData sample_batch) eq_refl)
                     (proj2 (proj2 (proj2 H)) 13 (sample_user 3) eq_refl)))).
Defined.

(** ** Failure *)

Lemma users_observer_effect (s : State) :
  users (observer_effect s) = users s
  /\ loading (observer_effect s) = loading s
  /\ promises (observer_effect s) = promises s
  /\ requests (observer_effect s) = requests s.
Proof.
  destruct s as [us ld o ref obs ps rs]. unfold observer_effect.
  destruct o, ref; done.
Qed.

Lemma users_observer_cleanup (s : State) :
  users (observer_cleanup s) = users s
  /\ loading (observer_cleanup s) = loading s
  /\ promises (observer_cleanup s) = promises s
  /\ requests (observer_cleanup s) = requests s.
Proof. unfold observer_cleanup. by destruct (observer s). Qed.

(** C4. An invocation whose request fails, or whose response fails to
    parse, rejects with that error (nothing catches it), leaves the
    loading flag set and leaves the accumulated sequence as it was. The
    same in the mounted component: the promise of the call ends
    rejected, the flag stays set and the sequence is untouched. *)
Theorem fetchUsers_failure_unhandled (env : Env) (h : Hooks) (e : Error) :
  (net env fetch_url = RejectedWith e
   \/ exists r, net env fetch_url = Resolved r /\ parse env r = RejectedWith e) ->
  (outcome (exec env fetchUsers h) = RejectedWith e
   /\ h_loading (final (exec env fetchUsers h)) = true
   /\ h_users (final (exec env fetchUsers h)) = h_users h)
  /\ (forall s : State,
        exists s1, run (invoke s) [FetchSettles (invocations s) (RejectedWith e)]
                   = Some s1
                   /\ promises s1 !! invocations s = Some (Rejected e)
                   /\ loading s1 = true
                   /\ users s1 = users s)
  /\ (forall (s : State) r,
        exists s2, run (invoke s) [FetchSettles (invocations s) (Resolved r);
                                   JsonSettles (invocations s) (RejectedWith e)]
                   = Some s2
                   /\ promises s2 !! invocations s = Some (Rejected e)
                   /\ loading s2 = true
                   /\ users s2 = users s).
Proof.
  intros Hfail. split; [| split].
  - rewrite fetchUsers_unfold. cbn.
    destruct Hfail as [Hn | (r & Hn & Hp)]; rewrite Hn; cbn; [done |].
    by rewrite Hp.
  - intros s. rewrite invoke_eq. unfold invocations. cbn.
    rewrite list_lookup_middle by done. eexists. split; [reflexivity |].
    cbn. split; [| done].
    rewrite list_lookup_insert_eq; [done |]. rewrite length_app. cbn. lia.
  - intros s r. rewrite invoke_eq. unfold invocations. cbn.
    rewrite list_lookup_middle by done. cbn.
    rewrite list_lookup_insert_eq by (rewrite length_app; cbn; lia).
    eexists. split; [reflexivity |]. cbn. split; [| done].
    rewrite list_lookup_insert_eq; [done |].
    rewrite length_insert, length_app. cbn. lia.
Qed.

Lemma fetchUsers_failure_unhandled_witness :
  outcome (exec offline fetchUsers (mkHooks [] false))
    = RejectedWith (TypeError "Failed to fetch")
  /\ h_loading (final (exec offline fetchUsers (mkHooks [] false))) = true
  /\ h_users (final (exec offline fetchUsers (mkHooks [] false))) = [].
Proof.
  refine (proj1 (fetchUsers_failure_unhandled offline (mkHooks [] false)
                   (TypeError "Failed to fetch") _)).
  left. reflexivity.
Defined.

(** ** The loading flag *)

Lemma last_insert {A} (l : list A) (t : nat) (x y : A) :
  l !! t = Some x ->
  last (<[t := y]> l) = if decide (S t = length l) then Some y else last l.
Proof.
  intros Ht. pose proof (lookup_lt_Some _ _ _ Ht) as Hlt.
  rewrite !last_lookup, length_insert, list_lookup_insert.
  destruct (decide (S t = length l)) as [Heq | Hne].
  - rewrite decide_True; [done | lia].
  - rewrite decide_False; [done | lia].
Qed.

(** A set flag was written by the newest call, and no parse has settled
    with data since: the newest promise is not a fulfilled one. *)
Lemma loading_newest_not_fulfilled (s : State) :
  reachable s ->
  loading s = true ->
  exists p, newest s = Some p /\ is_fulfilled p = false.
Proof.
  intros Hreach.
  induction Hreach as [| s0 ev s1 Hreach IH Htr] using reachable_induction.
  - intros _. by eexists.
  - pose proof (reachable_Inv s0 Hreach) as Hinv. unfold newest in *.
    assert (Hset : forall t x y,
               promises s0 !! t = Some x -> is_fulfilled y = false ->
               loading s0 = true ->
               exists p, last (<[t := y]> (promises s0)) = Some p
                         /\ is_fulfilled p = false).
    { intros t x y Ht Hy Hl. rewrite (last_insert _ _ _ _ Ht).
      destruct (decide _); [by exists y | by apply IH]. }
    destruct Htr as [o | o entry entries Hi | o entry entries Hi
                    | t r Ht | t e Ht | t r d Ht | t r e Ht]; try done.
    + intros _. rewrite invoke_eq. cbn [promises]. rewrite last_snoc.
      by eexists.
    + cbn [promises loading set_promises]. by apply (Hset t _ _ Ht).
    + unfold reject. cbn [promises loading set_promises].
      by apply (Hset t _ _ Ht).
    + destruct (loaded_fields s0 t d Hinv) as (_ & -> & _). done.
    + unfold reject. cbn [promises loading set_promises].
      by apply (Hset t _ _ Ht).
Qed.

(** C5, as the code has it. In every reachable state the loading flag is
    set only while the newest invocation has not completed: either it is
    still outstanding, awaiting its response or the parse of it, and so
    a fetch is in flight, or it has failed. After a failure the flag is
    right again as soon as a later invocation is in flight. *)
Theorem loading_only_in_flight (s : State) :
  reachable s ->
  loading s = true ->
  ((exists at_await, newest s = Some (Pending at_await)) /\ 0 < in_flight s)
  \/ (exists e, newest s = Some (Rejected e)).
Proof.
  intros Hreach Hl.
  destruct (loading_newest_not_fulfilled s Hreach Hl) as ([a | | e] & Hp & Hf);
    [| done |].
  - left. split; [by exists a |].
    unfold newest in Hp. rewrite last_lookup in Hp.
    apply (count_pos is_pending _ _ _ Hp eq_refl).
  - right. by exists e.
Qed.

Lemma loading_only_in_flight_witness :
  failed recovered_state = 1
  /\ loading recovered_state = true
  /\ (((exists at_await, newest recovered_state = Some (Pending at_await))
       /\ 0 < in_flight recovered_state)
      \/ (exists e, newest recovered_state = Some (Rejected e))).
Proof.
  split; [reflexivity |]. split; [reflexivity |].
  apply (loading_only_in_flight recovered_state).
  - exists recovered_run. exact recovered_run_state.
  - reflexivity.
Defined.

(** C5, as the spec words it, fails: once the request of the mount has
    failed, the flag is set and nothing is outstanding. *)
Lemma loading_stuck_after_failure :
  exists s,
    run mount [FetchSettles 0 (RejectedWith (TypeError "Failed to fetch"))] = Some s
    /\ loading s = true
    /\ in_flight s = 0
    /\ ~ loading_means_in_flight s.
Proof.
  eexists. split; [reflexivity |]. split; [reflexivity |].
  split; [reflexivity |].
  intros H. specialize (H eq_refl). vm_compute in H. lia.
Qed.

(** ** The intersection callback *)

(** C6. A delivery of entries to the callback calls the loader once when
    the entry it reads, the first, is intersecting, and not at all
    otherwise; in the mounted component the delivery adds that many
    invocations and requests. *)
Theorem handleObserver_at_most_once (entries : list Entry) :
  calls_made (handleObserver entries) =
    (if first_intersecting entries then [fetchUsers] else [])
  /\ length (calls_made (handleObserver entries)) <= 1
  /\ forall (s : State) (o : nat),
       match step s (Intersect o entries) with
       | Some s' =>
           invocations s' =
             invocations s + (if first_intersecting entries then 1 else 0)
           /\ requests s' =
             requests s ++ (if first_intersecting entries then [fetch_url] else [])
       | None => delivers s o entries = false
       end.
Proof.
  split; [| split].
  - destruct entries as [| entry entries]; [done |].
    cbn. by destruct (isIntersecting entry).
  - destruct entries as [| entry entries]; [cbn; lia |].
    cbn. destruct (isIntersecting entry); cbn; lia.
  - intros s o. cbn [step]. destruct (delivers s o entries); [| done].
    destruct entries as [| entry entries].
    + cbn. by rewrite app_nil_r, Nat.add_0_r.
    + cbn [handleObserver first_intersecting].
      destruct (isIntersecting entry).
      * change (rerender (foldl (fun sq p => call p sq) (s, []) [fetchUsers]))
          with (invoke s).
        rewrite invoke_eq. unfold invocations. cbn.
        rewrite length_app. cbn. done.
      * cbn. by rewrite app_nil_r, Nat.add_0_r.
Qed.

(** ** The observer *)

Lemma lookup_newest (n : nat) (targets : list Node) :
  (replicate n [] ++ [targets]) !! n = Some targets.
Proof.
  rewrite lookup_app_r by (rewrite length_replicate; lia).
  by rewrite length_replicate, Nat.sub_diag.
Qed.

Lemma lookup_older (n o : nat) (targets ts : list Node) :
  o <> n ->
  (replicate n [] ++ [targets]) !! o = Some ts ->
  ts = [].
Proof.
  intros Hne Hlook. apply lookup_app_Some in Hlook as [Hl | [Hge Hl]].
  - by apply lookup_replicate in Hl as [-> _].
  - rewrite length_replicate in Hge, Hl.
    destruct (o - n) as [| k] eqn:Hk; [lia | done].
Qed.

(** C8. In every reachable state the current observer observes exactly
    the element of the last card (nothing while there is no card), the
    ref holds that element, and no other observer observes anything.
    Each time a batch is stored the observer that was current is
    disconnected and a new one takes the element of the new last card. *)
Theorem observer_follows_last_card (s : State) :
  reachable s ->
  watched s = Some (last_card (users s))
  /\ lastUserElementRef s = last_node (users s)
  /\ (forall o ts, observer s <> Some o -> observers s !! o = Some ts -> ts = [])
  /\ forall t d,
       match step s (JsonSettles t (Resolved d)) with
       | Some s' =>
           exists o, observer s = Some o
                     /\ observer s' = Some (S o)
                     /\ observers s' !! o = Some []
                     /\ watched s' = Some (last_card (users s'))
                     /\ lastUserElementRef s' = last_node (users s')
       | None => True
       end.
Proof.
  intros Hreach. pose proof (reachable_Inv s Hreach) as Hinv.
  pose proof Hinv as (Hwf & Href & n & Ho & Hobs).
  split; [| split; [done |]; split].
  - unfold watched. rewrite Ho, Hobs. apply lookup_newest.
  - intros o ts Hne Hlook. rewrite Hobs in Hlook.
    apply (lookup_older n o (last_card (users s)) ts); [congruence | done].
  - intros t d.
    destruct (step s (JsonSettles t (Resolved d))) as [s' |] eqn:Hstep; [| done].
    pose proof (step_Transition _ _ _ Hwf Hstep) as Htr.
    pose proof (Transition_Inv _ _ _ Hinv Htr) as (_ & Href' & _).
    inversion Htr; subst.
    destruct (loaded_fields s t d Hinv) as (_ & _ & _ & _ & m & Hm & Ho' & Hobs').
    exists n. rewrite Ho in Hm. injection Hm as <-.
    split; [done |]. split; [done |]. split; [| split; [| done]].
    + rewrite Hobs'. rewrite lookup_app_l by (rewrite length_replicate; lia).
      apply lookup_replicate_2. lia.
    + unfold watched. rewrite Ho', Hobs'. apply lookup_newest.
Qed.

Lemma observer_follows_last_card_witness :
  exists s, run mount sample_run = Some s
            /\ watched s = Some [9]
            /\ lastUserElementRef s = Some 9.
Proof.
  eexists. split; [reflexivity |].
  refine (let H := observer_follows_last_card _ (ex_intro _ sample_run eq_refl)
          in conj (proj1 H) (proj1 (proj2 H))).
Defined.

(** ** No guard on the loader *)

Lemma rerender_after_json_users (t : nat) (d : Data) (s : State) :
  users (rerender (resume t (after_json d) s)) = users s ++ results d
  /\ loading (rerender (resume t (after_json d) s)) = false.
Proof.
  unfold resume. rewrite run_sync_after_json. unfold rerender.
  cbn [fst snd queued sent after users_changed existsb is_UUsers orb].
  set (s1 := set_requests _ _).
  set (h := flush _ _).
  change (lastUserElementRef (set_hooks h s1)) with (lastUserElementRef s).
  destruct (users_observer_effect (observer_cleanup (set_ref
              (commit_ref (render (hooks (set_hooks h s1))) (lastUserElementRef s))
              (set_hooks h s1)))) as (-> & -> & _).
  destruct (users_observer_cleanup (set_ref
              (commit_ref (render (hooks (set_hooks h s1))) (lastUserElementRef s))
              (set_hooks h s1))) as (-> & -> & _).
  subst h. by cbn.
Qed.

(** A call and the two settlements of its awaits, nothing in between. *)
Lemma invoke_then_batch (s : State) (r : Response) (d : Data) :
  run (invoke s) [FetchSettles (invocations s) (Resolved r);
                  JsonSettles (invocations s) (Resolved d)] =
  Some (rerender (resume (invocations s) (after_json d)
          (rerender (resume (invocations s) (after_fetch r) (invoke s))))).
Proof.
  cbn [run step].
  assert (H1 : promises (invoke s) !! invocations s
               = Some (Pending (AtFetch fetch_url after_fetch))).
  { rewrite invoke_eq. cbn. by apply list_lookup_middle. }
  rewrite H1.
  assert (H2 : promises (rerender (resume (invocations s) (after_fetch r) (invoke s)))
                 !! invocations s
               = Some (Pending (AtJson r after_json))).
  { rewrite resume_after_fetch. cbn [promises set_promises].
    apply list_lookup_insert_eq. rewrite invoke_eq. cbn [promises].
    rewrite length_app. unfold invocations. cbn. lia. }
  by rewrite H2.
Qed.

(** C9. The loader reads nothing of the state it is called in: called
    with the loading flag set it leaves the very state it leaves when
    called with the flag clear, so every later run agrees too; it sends
    a new request and registers a new invocation, and once that one's
    response is parsed the whole batch is appended. *)
Theorem fetchUsers_no_guard (s : State) :
  let busy := set_hooks (mkHooks (users s) true) s in
  let idle := set_hooks (mkHooks (users s) false) s in
  invoke busy = invoke idle
  /\ (forall evs, run (invoke busy) evs = run (invoke idle) evs)
  /\ requests (invoke busy) = requests s ++ [fetch_url]
  /\ invocations (invoke busy) = S (invocations s)
  /\ in_flight (invoke busy) = S (in_flight s)
  /\ forall r d,
       exists s', run (invoke busy) [FetchSettles (invocations s) (Resolved r);
                                     JsonSettles (invocations s) (Resolved d)]
                  = Some s'
                  /\ users s' = users s ++ results d.
Proof.
  intros busy idle.
  assert (Heq : invoke busy = invoke idle) by (by rewrite !invoke_eq).
  split; [done |]. split; [by rewrite Heq |].
  split; [by rewrite invoke_eq |].
  split; [rewrite invoke_eq; unfold invocations; cbn; rewrite length_app; cbn; lia |].
  split.
  - rewrite invoke_eq. unfold in_flight. cbn [promises]. rewrite count_app.
    change (count is_pending [Pending (AtFetch fetch_url after_fetch)]) with 1.
    subst busy. cbn. lia.
  - intros r d. eexists. split.
    + apply (invoke_then_batch busy r d).
    + rewrite (proj1 (rerender_after_json_users _ _ _)).
      rewrite resume_after_fetch, invoke_eq. reflexivity.
Qed.

(** ** Mounting *)

(** C10. Mounting calls the loader once, before any intersection can be
    delivered (the observer created at the mount has no target yet):
    one request for a batch of ten is out and the loading flag is set.
    When its response is parsed the records become the first cards,
    without any intersection event. *)
Theorem mount_fetches_once :
  invocations mount = 1
  /\ requests mount = [fetch_url]
  /\ promises mount = [Pending (AtFetch fetch_url after_fetch)]
  /\ users mount = []
  /\ loading mount = true
  /\ watched mount = Some []
  /\ forall r d,
       exists s, run mount [FetchSettles 0 (Resolved r);
                            JsonSettles 0 (Resolved d)] = Some s
                 /\ users s = results d
                 /\ invocations s = 1
                 /\ requests s = [fetch_url].
Proof.
  do 6 (split; [reflexivity |]).
  intros r d.
  exists (rerender (resume 0 (after_json d)
            (rerender (resume 0 (after_fetch r) mount)))).
  split; [reflexivity |].
  set (s1 := rerender (resume 0 (after_fetch r) mount)).
  assert (Hinv : Inv s1).
  { apply (run_Inv [FetchSettles 0 (Resolved r)]). reflexivity. }
  destruct (loaded_fields s1 0 d Hinv) as (Hu & _ & Hp & Hr & _).
  split; [exact Hu |]. split.
  - unfold invocations. rewrite Hp. reflexivity.
  - rewrite Hr. reflexivity.
Qed.

(** * Further properties *)

(** ** The sequence is the parsed batches, in settling order *)

Lemma batches_app (evs1 evs2 : list Event) :
  batches (evs1 ++ evs2) = batches evs1 ++ batches evs2.
Proof.
  induction evs1 as [| ev evs1 IH]; [done |].
  destruct ev as [o entries | t x | t [d | e]]; cbn; rewrite IH; [done.. | | done].
  by rewrite app_assoc.
Qed.

Lemma Transition_users (s : State) (ev : Event) (s' : State) :
  Inv s -> Transition s ev s' -> users s' = users s ++ batches [ev].
Proof.
  intros Hinv Htr.
  destruct Htr as [o | o entry entries Hi | o entry entries Hi
                  | t r Ht | t e Ht | t r d Ht | t r e Ht];
    cbn [batches]; rewrite ?app_nil_r; try done.
  by destruct (loaded_fields s t d Hinv) as (-> & _).
Qed.

Lemma run_users_batches (s : State) (evs : list Event) (s' : State) :
  Inv s -> run s evs = Some s' -> users s' = users s ++ batches evs.
Proof.
  revert s. induction evs as [| ev evs IH]; intros s Hinv Hrun; cbn [run] in Hrun.
  - injection Hrun as <-. by rewrite app_nil_r.
  - destruct (step s ev) as [s1 |] eqn:Hstep; [| done].
    pose proof (step_Transition _ _ _ (proj1 Hinv) Hstep) as Htr.
    rewrite (IH s1 (Transition_Inv _ _ _ Hinv Htr) Hrun).
    rewrite (Transition_users _ _ _ Hinv Htr).
    change (ev :: evs) with ([ev] ++ evs).
    by rewrite batches_app, app_assoc.
Qed.

(** X1. After any run from the mount the accumulated sequence is the
    concatenation of the batches parsed so far, in the order in which
    their parses settled, whatever the order of the calls. *)
Theorem users_are_batches (evs : list Event) (s : State) :
  run mount evs = Some s ->
  users s = batches evs.
Proof.
  intros Hrun. by rewrite (run_users_batches mount evs s Inv_mount Hrun).
Qed.

Lemma users_are_batches_witness :
  exists s, run mount overlap_run = Some s /\ users s = sample_batch.
Proof.
  exists overlap_state. split; [exact overlap_run_state |].
  exact (users_are_batches overlap_run _ overlap_run_state).
Defined.

(** ** Overlapping invocations *)

Lemma parsing_lookup (s : State) (t : nat) :
  Inv s -> parsing s t = true ->
  exists r, promises s !! t = Some (Pending (AtJson r after_json)).
Proof.
  intros (Hwf & _) Hp. unfold parsing in Hp.
  destruct (promises s !! t) as [[[url k | r k] | | e] |] eqn:Ht; try done.
  pose proof (Forall_lookup_1 _ _ _ _ Hwf Ht) as Hk. cbn in Hk. subst k.
  by exists r.
Qed.

(** The parse of invocation [t] settles with data: the step is enabled
    and leaves the others awaiting as they were. *)
Lemma step_parsed (s : State) (t : nat) (d : Data) :
  Inv s -> parsing s t = true ->
  exists s', step s (JsonSettles t (Resolved d)) = Some s'
             /\ users s' = users s ++ results d
             /\ loading s' = false
             /\ promises s' = <[t := Fulfilled]> (promises s)
             /\ forall t', t' <> t -> parsing s' t' = parsing s t'.
Proof.
  intros Hinv Hp. destruct (parsing_lookup s t Hinv Hp) as [r Ht].
  exists (rerender (resume t (after_json d) s)).
  cbn [step]. rewrite Ht.
  destruct (loaded_fields s t d Hinv) as (Hu & Hl & Hpr & _).
  repeat split; try done.
  intros t' Hne. unfold parsing. rewrite Hpr.
  by rewrite list_lookup_insert_ne.
Qed.

(** Two awaited parses settle with data, one after the other. *)
Lemma run_two_parsed (s : State) (t1 t2 : nat) (d1 d2 : Data) :
  Inv s -> t1 <> t2 -> parsing s t1 = true -> parsing s t2 = true ->
  exists s', run s [JsonSettles t1 (Resolved d1); JsonSettles t2 (Resolved d2)]
             = Some s'
             /\ users s' = users s ++ results d1 ++ results d2
             /\ loading s' = false.
Proof.
  intros Hinv Hne Hp1 Hp2.
  destruct (step_parsed s t1 d1 Hinv Hp1) as (sa & Hsa & Hua & _ & _ & Hpa).
  pose proof (Transition_Inv _ _ _ Hinv
                (step_Transition _ _ _ (proj1 Hinv) Hsa)) as Hinva.
  assert (Hp2a : parsing sa t2 = true) by (rewrite Hpa; [done | congruence]).
  destruct (step_parsed sa t2 d2 Hinva Hp2a) as (s' & Hs' & Hu' & Hl' & _).
  exists s'. cbn [run]. rewrite Hsa, Hs'.
  split; [done |]. split; [| done]. by rewrite Hu', Hua, <- app_assoc.
Qed.

(** X2. When two invocations await their parse, either parse may settle
    first, and the batch whose parse settles first comes first in the
    accumulated sequence: the order of the records follows the order of
    settling, not the order of the calls. Both orders clear the flag. *)
Theorem overlapping_batches_order (s : State) (t1 t2 : nat) (d1 d2 : Data) :
  reachable s ->
  t1 <> t2 ->
  parsing s t1 = true ->
  parsing s t2 = true ->
  exists s12 s21,
    run s [JsonSettles t1 (Resolved d1); JsonSettles t2 (Resolved d2)] = Some s12
    /\ run s [JsonSettles t2 (Resolved d2); JsonSettles t1 (Resolved d1)] = Some s21
    /\ users s12 = users s ++ results d1 ++ results d2
    /\ users s21 = users s ++ results d2 ++ results d1
    /\ loading s12 = false
    /\ loading s21 = false.
Proof.
  intros Hreach Hne Hp1 Hp2. pose proof (reachable_Inv s Hreach) as Hinv.
  destruct (run_two_parsed s t1 t2 d1 d2 Hinv Hne Hp1 Hp2)
    as (s12 & Hr12 & Hu12 & Hl12).
  destruct (run_two_parsed s t2 t1 d2 d1 Hinv (not_eq_sym Hne) Hp2 Hp1)
    as (s21 & Hr21 & Hu21 & Hl21).
  by exists s12, s21.
Qed.

Lemma overlapping_batches_order_witness :
  exists s12 s21,
    run overlap_state [JsonSettles 1 (Resolved (mkData other_batch));
                       JsonSettles 2 (Resolved (mkData sample_batch))] = Some s12
    /\ run overlap_state [JsonSettles 2 (Resolved (mkData sample_batch));
                          JsonSettles 1 (Resolved (mkData other_batch))] = Some s21
    /\ users s12 = users overlap_state ++ other_batch ++ sample_batch
    /\ users s21 = users overlap_state ++ sample_batch ++ other_batch
    /\ loading s12 = false
    /\ loading s21 = false.
Proof.
  apply (overlapping_batches_order overlap_state 1 2
           (mkData other_batch) (mkData sample_batch)).
  - exists overlap_run. exact overlap_run_state.
  - lia.
  - reflexivity.
  - reflexivity.
Defined.

(** ** The requests *)



(** ** Who writes the loading flag *)

(** X4. The loading flag is written by two events only: a delivery whose
    first entry is intersecting sets it, and a parse that settles with
    data clears it. A response, a failed request, a failed parse and a
    delivery that calls nothing leave it as it was. *)
Theorem loading_last_writer (s : State) (ev : Event) (s' : State) :
  reachable s ->
  step s ev = Some s' ->
  loading s' = flag_after ev (loading s).
Proof.
  intros Hreach Hstep. pose proof (reachable_Inv s Hreach) as Hinv.
  pose proof (step_Transition _ _ _ (proj1 Hinv) Hstep) as Htr.
  destruct Htr as [o | o entry entries Hi | o entry entries Hi
                  | t r Ht | t e Ht | t r d Ht | t r e Ht];
    cbn [flag_after first_intersecting]; rewrite ?Hi; try done.
  by destruct (loaded_fields s t d Hinv) as (_ & -> & _).
Qed.

Lemma loading_last_writer_witness :
  exists s', step overlap_state visible_last = Some s' /\ loading s' = true.
Proof.
  eexists. split; [reflexivity |].
  refine (loading_last_writer overlap_state visible_last _ _ eq_refl).
  exists overlap_run. exact overlap_run_state.
Defined.

(** X5. The parse of one invocation settling with data clears the flag
    and takes the indicator off the view whatever else is outstanding:
    with two or more invocations in flight the indicator is gone while
    a request is still out. *)
Theorem indicator_off_while_fetching (s : State) (t : nat) (d : Data) (s' : State) :
  reachable s ->
  2 <= in_flight s ->
  step s (JsonSettles t (Resolved d)) = Some s' ->
  indicator (render (hooks s')) = None
  /\ loading s' = false
  /\ S (in_flight s') = in_flight s
  /\ 0 < in_flight s'.
Proof.
  intros Hreach Htwo Hstep. pose proof (reachable_Inv s Hreach) as Hinv.
  pose proof (step_Transition _ _ _ (proj1 Hinv) Hstep) as Htr.
  inversion Htr as [| | | | | t0 r0 d0 Ht |]; subst.
  destruct (loaded_fields s t d Hinv) as (_ & Hl & Hp & _).
  assert (Hc : S (in_flight (rerender (resume t (after_json d) s))) = in_flight s).
  { unfold in_flight. rewrite Hp.
    pose proof (count_insert is_pending _ _ _ Fulfilled Ht) as Hc.
    cbn in Hc. lia. }
  split; [| split; [done |]; split; [done | lia]].
  unfold render, hooks. cbn [indicator h_loading]. by rewrite Hl.
Qed.

Lemma indicator_off_while_fetching_witness :
  exists s', step overlap_state (JsonSettles 1 (Resolved (mkData other_batch))) = Some s'
             /\ indicator (render (hooks s')) = None
             /\ 0 < in_flight s'.
Proof.
  eexists. split; [reflexivity |].
  refine (let H := indicator_off_while_fetching overlap_state 1
                     (mkData other_batch) _ _ _ eq_refl
          in conj (proj1 H) (proj2 (proj2 (proj2 H)))).
  - exists overlap_run. exact overlap_run_state.
  - vm_compute. lia.
Defined.

(** ** Which entries can be delivered *)

Lemma delivers_last_card (s : State) (o : nat) (entry : Entry) (entries : list Entry) :
  Inv s ->
  delivers s o (entry :: entries) = true ->
  observer s = Some o
  /\ last_node (users s) = Some (target entry).
Proof.
  intros (_ & _ & n & Ho & Hobs) Hd. unfold delivers in Hd. rewrite Hobs in Hd.
  destruct ((replicate n [] ++ [last_card (users s)]) !! o) as [targets |] eqn:Hlook;
    [| done].
  cbn in Hd. apply andb_prop in Hd as [Hin _].
  apply bool_decide_eq_true in Hin.
  destruct (decide (o = n)) as [-> | Hne].
  - rewrite lookup_newest in Hlook. injection Hlook as <-.
    split; [done |]. unfold last_card in Hin.
    destruct (last_node (users s)) as [m |]; [| by apply elem_of_nil in Hin].
    apply list_elem_of_singleton in Hin. by rewrite Hin.
  - apply (lookup_older n o _ targets Hne) in Hlook. subst targets.
    by apply elem_of_nil in Hin.
Qed.

(** ** A feed that cannot go on *)

Lemma step_stuck (s : State) (ev : Event) (s' : State) :
  Inv s -> users s = [] -> in_flight s = 0 ->
  step s ev = Some s' -> s' = s.
Proof.
  intros Hinv Hnil Hnone Hstep.
  assert (Hno : forall t x, promises s !! t = Some (Pending x) -> False).
  { intros t x Ht. pose proof (count_pos is_pending _ t _ Ht eq_refl) as Hc.
    unfold in_flight in Hnone. lia. }
  destruct ev as [o entries | t x | t x].
  - cbn [step] in Hstep. destruct (delivers s o entries) eqn:Hd; [| done].
    destruct entries as [| entry entries]; [by injection Hstep |].
    destruct (delivers_last_card s o entry entries Hinv Hd) as [_ Hl].
    by rewrite Hnil in Hl.
  - pose proof (step_Transition _ _ _ (proj1 Hinv) Hstep) as Htr.
    inversion Htr; subst; exfalso; eauto.
  - pose proof (step_Transition _ _ _ (proj1 Hinv) Hstep) as Htr.
    inversion Htr; subst; exfalso; eauto.
Qed.

(** X7. With no record in the sequence and no invocation outstanding the
    feed is stuck for good: nothing is observed, so no event can start a
    fetch, and every run leaves the state exactly as it is. This is
    where a failed first request leaves the component (loading flag set),
    and an empty first batch too. *)
Theorem empty_feed_is_stuck (s : State) (evs : list Event) (s' : State) :
  reachable s ->
  users s = [] ->
  in_flight s = 0 ->
  run s evs = Some s' ->
  s' = s.
Proof.
  intros Hreach Hnil Hnone. pose proof (reachable_Inv s Hreach) as Hinv.
  induction evs as [| ev evs IH]; intros Hrun; cbn [run] in Hrun.
  - by injection Hrun.
  - destruct (step s ev) as [s1 |] eqn:Hstep; [| done].
    rewrite (step_stuck s ev s1 Hinv Hnil Hnone Hstep) in Hrun. by apply IH.
Qed.

Lemma empty_feed_is_stuck_witness :
  exists s s',
    run mount [FetchSettles 0 (RejectedWith (TypeError "Failed to fetch"))] = Some s
    /\ run s [Intersect 0 []; Intersect 0 []] = Some s'
    /\ loading s = true
    /\ s' = s.
Proof.
  eexists. eexists. split; [reflexivity |]. split; [reflexivity |].
  split; [reflexivity |].
  apply (empty_feed_is_stuck _ [Intersect 0 []; Intersect 0 []]).
  - by exists [FetchSettles 0 (RejectedWith (TypeError "Failed to fetch"))].
  - reflexivity.
  - reflexivity.
  - reflexivity.
Defined.

(** ** The cleanup of the observer effect *)

(** X9. When the cleanup of the observer effect runs, as it does at the
    unmount, no observer instance is left with a target, so no entry
    about a card can be delivered any more; the invocations in flight
    are not cancelled and the hook state is not touched. *)
Theorem cleanup_disconnects_all (s : State) :
  reachable s ->
  Forall (fun targets => targets = []) (observers (observer_cleanup s))
  /\ (forall o entry entries,
        delivers (observer_cleanup s) o (entry :: entries) = false)
  /\ promises (observer_cleanup s) = promises s
  /\ hooks (observer_cleanup s) = hooks s.
Proof.
  intros Hreach.
  destruct (reachable_Inv s Hreach) as (_ & _ & n & Hn & Hobs).
  assert (Hall : observers (observer_cleanup s) = replicate (S n) []).
  { unfold observer_cleanup. rewrite Hn. cbn [observers set_observers].
    rewrite Hobs. apply disconnect_newest. }
  destruct (users_observer_cleanup s) as (Hu & Hl & Hp & _).
  split; [| split; [| split; [done |]]].
  - rewrite Hall. by apply Forall_replicate.
  - intros o entry entries. unfold delivers. rewrite Hall.
    destruct (replicate (S n) [] !! o) as [targets |] eqn:Hlook; [| done].
    apply lookup_replicate in Hlook as [-> _]. cbn.
    rewrite bool_decide_eq_false_2; [done |]. apply not_elem_of_nil.
  - unfold hooks. by rewrite Hu, Hl.
Qed.

Lemma cleanup_disconnects_all_witness :
  Forall (fun targets => targets = []) (observers (observer_cleanup overlap_state))
  /\ promises (observer_cleanup overlap_state) = promises overlap_state.
Proof.
  refine (let H := cleanup_disconnects_all overlap_state
                     (ex_intro _ overlap_run overlap_run_state)
          in conj (proj1 H) (proj1 (proj2 (proj2 H)))).
Defined.

(** ** The entry point *)

Lemma Inv_strict_mount : Inv strict_mount.
Proof.
  split; [| split].
  - by repeat constructor.
  - reflexivity.
  - by exists 1.
Qed.

Lemma run_app (s : State) (evs1 evs2 : list Event) :
  run s (evs1 ++ evs2) =
  match run s evs1 with
  | Some s1 => run s1 evs2
  | None => None
  end.
Proof.
  revert s. induction evs1 as [| ev evs1 IH]; intros s; [done |].
  cbn [run app]. destruct (step s ev); [apply IH | done].
Qed.

Lemma run_Inv_from (s : State) (evs : list Event) (s' : State) :
  Inv s -> run s evs = Some s' -> Inv s'.
Proof.
  revert s. induction evs as [| ev evs IH]; intros s Hinv Hrun; cbn [run] in Hrun.
  - by injection Hrun as <-.
  - destruct (step s ev) as [s1 |] eqn:Hstep; [| done].
    apply (IH s1); [| done].
    eapply Transition_Inv; [done |].
    apply step_Transition; [apply Hinv | done].
Qed.

(** X10. Under [StrictMode] a development build runs the effects of the
    mount twice: the loader is called twice before anything is shown,
    two requests are out, the first observer is disconnected and a
    second one is current. Once both parses settle the feed holds both
    batches without any scrolling. A production build calls the loader
    once; both builds start with the same hook state. *)
Theorem strict_mode_fetches_twice (r1 r2 : Response) (d1 d2 : Data) :
  invocations (main true) = 2
  /\ requests (main true) = [fetch_url; fetch_url]
  /\ observers (main true) = [[]; []]
  /\ observer (main true) = Some 1
  /\ invocations (main false) = 1
  /\ hooks (main true) = hooks (main false)
  /\ exists s, run (main true) [FetchSettles 0 (Resolved r1);
                                FetchSettles 1 (Resolved r2);
                                JsonSettles 0 (Resolved d1);
                                JsonSettles 1 (Resolved d2)] = Some s
               /\ users s = results d1 ++ results d2
               /\ loading s = false
               /\ in_flight s = 0.
Proof.
  do 6 (split; [reflexivity |]).
  set (s2 := rerender (resume 1 (after_fetch r2)
               (rerender (resume 0 (after_fetch r1) strict_mount)))).
  assert (Hrun : run strict_mount [FetchSettles 0 (Resolved r1);
                                   FetchSettles 1 (Resolved r2)] = Some s2)
    by reflexivity.
  pose proof (run_Inv_from _ _ _ Inv_strict_mount Hrun) as Hinv.
  assert (Hp0 : parsing s2 0 = true) by reflexivity.
  assert (Hp1 : parsing s2 1 = true) by reflexivity.
  destruct (step_parsed s2 0 d1 Hinv Hp0) as (sa & Hsa & Hua & _ & Hpa & Hpar).
  pose proof (Transition_Inv _ _ _ Hinv
                (step_Transition _ _ _ (proj1 Hinv) Hsa)) as Hinva.
  assert (Hp1a : parsing sa 1 = true) by (rewrite Hpar; [done | lia]).
  destruct (step_parsed sa 1 d2 Hinva Hp1a) as (sb & Hsb & Hub & Hlb & Hpb & _).
  exists sb. split; [| split; [| split; [done |]]].
  - change (main true) with strict_mount.
    change [FetchSettles 0 (Resolved r1); FetchSettles 1 (Resolved r2);
            JsonSettles 0 (Resolved d1); JsonSettles 1 (Resolved d2)]
      with ([FetchSettles 0 (Resolved r1); FetchSettles 1 (Resolved r2)]
            ++ [JsonSettles 0 (Resolved d1); JsonSettles 1 (Resolved d2)]).
    rewrite run_app, Hrun. cbn [run]. by rewrite Hsa, Hsb.
  - rewrite Hub, Hua. reflexivity.
  - unfold in_flight. rewrite Hpb, Hpa. reflexivity.
Qed.

(** ** The keys of the cards *)

Lemma render_keys (h : Hooks) :
  key <$> cards (render h) = login_uuid <$> h_users h.
Proof.
  apply list_eq. intros i. rewrite !list_lookup_fmap, render_cards_lookup.
  by destruct (h_users h !! i).
Qed.

(** X11. The React keys of the rendered cards are the [login.uuid]s of
    the records, in order. Nothing filters a batch, so when a parsed
    batch holds a record whose uuid is already in the sequence the next
    render has two cards with the same key. *)
Theorem repeated_uuid_repeats_key
    (s : State) (t : nat) (d : Data) (s' : State) (old new : User) :
  reachable s ->
  step s (JsonSettles t (Resolved d)) = Some s' ->
  old ∈ users s ->
  new ∈ results d ->
  login_uuid old = login_uuid new ->
  key <$> cards (render (hooks s')) =
    (login_uuid <$> users s) ++ (login_uuid <$> results d)
  /\ ~ NoDup (key <$> cards (render (hooks s'))).
Proof.
  intros Hreach Hstep Hold Hnew Heq.
  pose proof (reachable_Inv s Hreach) as Hinv.
  pose proof (step_Transition _ _ _ (proj1 Hinv) Hstep) as Htr.
  inversion Htr as [| | | | | t0 r0 d0 Ht |]; subst.
  destruct (loaded_fields s t d Hinv) as (Hu & _).
  assert (Hkeys : key <$> cards (render (hooks (rerender (resume t (after_json d) s))))
                  = (login_uuid <$> users s) ++ (login_uuid <$> results d)).
  { rewrite render_keys. unfold hooks. cbn [h_users]. by rewrite Hu, fmap_app. }
  split; [done |]. rewrite Hkeys. intros Hnodup.
  apply NoDup_app in Hnodup as (_ & Hdisj & _).
  apply (Hdisj (login_uuid old)).
  - by apply list_elem_of_fmap_2.
  - rewrite Heq. by apply list_elem_of_fmap_2.
Qed.

Lemma repeated_uuid_repeats_key_witness :
  exists s',
    step overlap_state (JsonSettles 1 (Resolved (mkData sample_batch))) = Some s'
    /\ ~ NoDup (key <$> cards (render (hooks s'))).
Proof.
  eexists. split; [reflexivity |].
  refine (proj2 (repeated_uuid_repeats_key overlap_state 1 (mkData sample_batch) _
                   (sample_user 0) (sample_user 0) _ eq_refl _ _ eq_refl)).
  - exists overlap_run. exact overlap_run_state.
  - apply list_elem_of_here.
  - apply list_elem_of_here.
Defined.

(** ** An invocation with nothing in between *)

Lemma rerender_after_json_promises (t : nat) (d : Data) (s : State) :
  promises (rerender (resume t (after_json d) s)) = <[t := Fulfilled]> (promises s)
  /\ requests (rerender (resume t (after_json d) s)) = requests s.
Proof.
  unfold resume. rewrite run_sync_after_json. unfold rerender.
  cbn [fst snd queued sent after users_changed existsb is_UUsers orb].
  set (s1 := set_requests _ _).
  set (h := flush _ _).
  change (lastUserElementRef (set_hooks h s1)) with (lastUserElementRef s).
  destruct (users_observer_effect (observer_cleanup (set_ref
              (commit_ref (render (hooks (set_hooks h s1))) (lastUserElementRef s))
              (set_hooks h s1)))) as (_ & _ & -> & ->).
  destruct (users_observer_cleanup (set_ref
              (commit_ref (render (hooks (set_hooks h s1))) (lastUserElementRef s))
              (set_hooks h s1))) as (_ & _ & -> & ->).
  subst h s1. cbn. by rewrite app_nil_r.
Qed.

Lemma fetchUsers_request_fails (env : Env) (h : Hooks) (e : Error) :
  net env fetch_url = RejectedWith e ->
  outcome (exec env fetchUsers h) = RejectedWith e
  /\ final (exec env fetchUsers h) = mkHooks (h_users h) true.
Proof. intros Hn. rewrite fetchUsers_unfold. cbn. by rewrite Hn. Qed.

Lemma fetchUsers_parse_fails (env : Env) (h : Hooks) (r : Response) (e : Error) :
  net env fetch_url = Resolved r ->
  parse env r = RejectedWith e ->
  outcome (exec env fetchUsers h) = RejectedWith e
  /\ final (exec env fetchUsers h) = mkHooks (h_users h) true.
Proof.
  intros Hn Hp. rewrite fetchUsers_unfold. cbn. rewrite Hn. cbn. by rewrite Hp.
Qed.

(** X12. A call of the loader in the mounted component, followed by the
    settlements of its own awaits and nothing else, leaves the hook
    state that the invocation run on its own ends in, and its promise
    settles as that run's outcome says: fulfilled, or rejected with the
    error of the failing await. This holds from any state, whatever
    else is in flight. *)
Theorem invocation_alone_matches_exec (s : State) (env : Env) :
  exists s',
    run (invoke s) (settlements env (invocations s)) = Some s'
    /\ hooks s' = final (exec env fetchUsers (hooks s))
    /\ promises s' !! invocations s
       = Some (settled_as (outcome (exec env fetchUsers (hooks s))))
    /\ requests s' = requests s ++ [fetch_url].
Proof.
  unfold settlements.
  destruct (net env fetch_url) as [r | e] eqn:Hn.
  - destruct (parse env r) as [d | e] eqn:Hp.
    + destruct (fetchUsers_completes env (hooks s) r d Hn Hp) as [-> ->].
      eexists. split; [apply invoke_then_batch |].
      destruct (rerender_after_json_users (invocations s) d
                  (rerender (resume (invocations s) (after_fetch r) (invoke s))))
        as [Hu Hl].
      destruct (rerender_after_json_promises (invocations s) d
                  (rerender (resume (invocations s) (after_fetch r) (invoke s))))
        as [Hpr Hrq].
      split; [| split].
      * unfold hooks at 1. rewrite Hu, Hl, resume_after_fetch, invoke_eq.
        reflexivity.
      * rewrite Hpr. cbn [settled_as]. apply list_lookup_insert_eq.
        rewrite resume_after_fetch, invoke_eq. cbn [promises set_promises].
        rewrite length_insert, length_app. unfold invocations. cbn. lia.
      * rewrite Hrq, resume_after_fetch, invoke_eq. reflexivity.
    + destruct (fetchUsers_parse_fails env (hooks s) r e Hn Hp) as [-> ->].
      rewrite invoke_eq. unfold invocations. cbn [run step promises].
      rewrite list_lookup_middle by done. cbn.
      rewrite list_lookup_insert_eq by (rewrite length_app; cbn; lia).
      eexists. split; [reflexivity |]. cbn. split; [done |].
      split; [| by rewrite app_nil_r].
      rewrite list_lookup_insert_eq; [done |].
      rewrite length_insert, length_app. cbn. lia.
  - destruct (fetchUsers_request_fails env (hooks s) e Hn) as [-> ->].
    rewrite invoke_eq. unfold invocations. cbn [run step promises].
    rewrite list_lookup_middle by done. eexists. split; [reflexivity |].
    cbn. split; [done |]. split; [| done].
    rewrite list_lookup_insert_eq; [done |]. rewrite length_app. cbn. lia.
Qed.

(** ** What a render changes of the cards already shown *)

(** X13. However the run goes on, every card before the last one is
    rendered again exactly as it was, so the memoised [UserCard] has
    nothing to redo for it; only the card that was last can change,
    when it hands the ref on to a newer one. *)
Theorem earlier_cards_unchanged
    (s : State) (evs : list Event) (s' : State) (i : nat) :
  reachable s ->
  run s evs = Some s' ->
  i + 1 < length (users s) ->
  cards (render (hooks s')) !! i = cards (render (hooks s)) !! i
  /\ exists user, users s !! i = Some user
                  /\ cards (render (hooks s')) !! i = Some (UserCard user false).
Proof.
  intros Hreach Hrun Hi. pose proof (reachable_Inv s Hreach) as Hinv.
  destruct (run_users_prefix s evs s' Hinv Hrun) as [added Hadd].
  destruct (lookup_lt_is_Some_2 (users s) i) as [user Hu]; [lia |].
  assert (Hnew : cards (render (hooks s')) !! i = Some (UserCard user false)).
  { rewrite render_cards_lookup. cbn [hooks h_users]. rewrite Hadd.
    rewrite lookup_app_l by lia. rewrite Hu. cbn.
    rewrite bool_decide_eq_false_2; [done |]. rewrite length_app. lia. }
  split; [| by exists user].
  rewrite Hnew, render_cards_lookup. cbn [hooks h_users]. rewrite Hu. cbn.
  rewrite bool_decide_eq_false_2; [done | lia].
Qed.

Lemma earlier_cards_unchanged_witness :
  exists s',
    run overlap_state [JsonSettles 1 (Resolved (mkData other_batch))] = Some s'
    /\ cards (render (hooks s')) !! 3 = cards (render (hooks overlap_state)) !! 3.
Proof.
  eexists. split; [reflexivity |].
  refine (proj1 (earlier_cards_unchanged overlap_state
                   [JsonSettles 1 (Resolved (mkData other_batch))] _ 3 _ eq_refl _)).
  - exists overlap_run. exact overlap_run_state.
  - vm_compute. lia.
Defined.

(** ** A feed that can go on *)

(** X14. While there is a card, the report that the last card is in view
    can be delivered by the current observer, and it starts a new
    invocation with a new request, whatever the loading flag says and
    however many invocations are in flight. *)
Theorem last_card_in_view_fetches (s : State) :
  reachable s ->
  users s <> [] ->
  exists o s',
    observer s = Some o
    /\ step s (Intersect o [mkEntry (length (users s) - 1) true]) = Some s'
    /\ invocations s' = S (invocations s)
    /\ in_flight s' = S (in_flight s)
    /\ requests s' = requests s ++ [fetch_url]
    /\ loading s' = true
    /\ users s' = users s.
Proof.
  intros Hreach Hne.
  destruct (reachable_Inv s Hreach) as (_ & _ & n & Hn & Hobs).
  exists n, (invoke s). split; [done |].
  assert (Hd : delivers s n [mkEntry (length (users s) - 1) true] = true).
  { unfold delivers. rewrite Hobs, lookup_newest. cbn.
    rewrite andb_true_r. apply bool_decide_eq_true.
    unfold last_card, last_node. destruct (users s); [done |].
    apply list_elem_of_here. }
  split.
  { cbn [step]. rewrite Hd. reflexivity. }
  rewrite invoke_eq. unfold invocations, in_flight. cbn [promises requests loading users].
  rewrite length_app, count_app.
  change (count is_pending [Pending (AtFetch fetch_url after_fetch)]) with 1.
  cbn [length]. repeat split; lia.
Qed.

Lemma last_card_in_view_fetches_witness :
  exists o s',
    observer overlap_state = Some o
    /\ step overlap_state
         (Intersect o [mkEntry (length (users overlap_state) - 1) true]) = Some s'
    /\ invocations s' = S (invocations overlap_state).
Proof.
  destruct (last_card_in_view_fetches overlap_state) as (o & s' & Ho & Hs & Hi & _).
  - exists overlap_run. exact overlap_run_state.
  - discriminate.
  - by exists o, s'.
Defined.
